(** * mod.ts: the event emitter of deno-events

    A shallow embedding of the class [EventEmitter] of [mod.ts] (the
    registry of listeners, [listenersOf], [on], [once], [emit] and
    [emitSync]) and the properties of its dispatch that the specification
    states.

    Conventions of the embedding.
    - A JavaScript array of listeners is a [list (option Listener)]: [None]
      is a hole, which is what [delete array[i]] leaves behind (the length
      of the array does not change).
    - The object [this.listeners[priority]] is a finite map from event types
      to arrays.  Event types are strings.  The map holds the own
      properties of the object: on a key that the object inherits from
      [Object.prototype] (see [inherited]) the code finds a value that is
      no array and throws, so the statements about what a registration or
      an emission yields are made for the other keys.
    - Code of the caller (the bodies of the listeners) is a parameter: a
      state transformer on the emitter and on the rest of the program's
      state, so that a listener may register, remove or emit while it runs.
    - Every emission returns, next to its result, the list of the calls
      [listener(data)] that the dispatcher made.
    - [reemitSync] and [reemit] are the bodies of the functions they
      return.  [wait] and [error], which hand [on] to the Abortable
      library, are not part of the embedding. *)

From stdpp Require Import base option list strings gmap.

Local Open Scope string_scope.
Local Open Scope list_scope.

(** ** Values *)

(** [type EventPriority = "before" | "normal" | "after"] *)
Inductive EventPriority : Type := before | normal | after.

#[global] Instance EventPriority_eq_dec : EqDecision EventPriority.
Proof. solve_decision. Defined.

(** The JavaScript values the dispatcher can tell apart.  [VCancelled] is
    an instance of [class Cancelled { constructor(readonly reason?: string) }];
    [VTypeError] is the error raised by calling [undefined]. *)
Inductive Value : Type :=
  | VUndefined
  | VNum (n : Z)
  | VStr (s : string)
  | VCancelled (reason : option string)
  | VTypeError.

#[global] Instance Value_eq_dec : EqDecision Value.
Proof. solve_decision. Defined.

(** What a promise returned by a listener settles to. *)
Inductive Settled : Type :=
  | Fulfilled (v : Value)
  | Rejected (e : Value).

(** What the call [listener(data)] does: it returns a plain value, throws,
    or returns a promise. *)
Inductive Completion : Type :=
  | Returns (v : Value)
  | Throws (e : Value)
  | ReturnsPromise (p : Settled).

(** The cleanup function [() => delete this.listenersOf(type, priority)[i]]
    returned by [on], given by the variables it captures. *)
Record Handle : Type := mkHandle {
  h_type : string;
  h_priority : EventPriority;
  h_index : nat
}.

(** A listener is a function object of the caller, [Fn id], or the arrow
    function [(e) => { off(); listener(e) }] that [once] creates. *)
Inductive Listener : Type :=
  | Fn (id : nat)
  | OnceFn (off : Handle) (listener : Listener).

#[global] Instance Handle_eq_dec : EqDecision Handle.
Proof. solve_decision. Defined.

#[global] Instance Listener_eq_dec : EqDecision Listener.
Proof. solve_decision. Defined.

(** [EventListeners<T>]: event type to array of listeners. *)
Abbreviation EventListeners := (gmap string (list (option Listener))).

(** [class EventEmitter<T>]: its only field is [listeners], an object with
    one [EventListeners] per priority. *)
Record EventEmitter : Type := mkEmitter {
  l_before : EventListeners;
  l_normal : EventListeners;
  l_after : EventListeners
}.

(** The emitter as the field initialiser leaves it. *)
Definition new_emitter : EventEmitter := mkEmitter ∅ ∅ ∅.

(** [this.listeners[priority]] *)
Definition tier (priority : EventPriority) (em : EventEmitter) : EventListeners :=
  match priority with
  | before => l_before em
  | normal => l_normal em
  | after => l_after em
  end.

(** [this.listeners[priority][type] = ls] *)
Definition set_bucket (type : string) (priority : EventPriority)
    (ls : list (option Listener)) (em : EventEmitter) : EventEmitter :=
  match priority with
  | before => mkEmitter (<[type := ls]> (l_before em)) (l_normal em) (l_after em)
  | normal => mkEmitter (l_before em) (<[type := ls]> (l_normal em)) (l_after em)
  | after => mkEmitter (l_before em) (l_normal em) (<[type := ls]> (l_after em))
  end.

(** The listeners of a bucket, the empty array when the bucket is absent. *)
Definition bucket (type : string) (priority : EventPriority) (em : EventEmitter)
    : list (option Listener) :=
  default [] (tier priority em !! type).

(** ** The registry *)

(** The keys that the object literal [{}] inherits from [Object.prototype].
    For such a key [this.listeners[priority][type]] is a function (for
    [__proto__], the prototype object) unless the object has an own
    property of that name: [listenersOf] then creates nothing and returns
    it, [push] is not a function and the value cannot be spread. *)
Definition inherited : list string :=
  ["constructor"; "__defineGetter__"; "__defineSetter__"; "hasOwnProperty";
   "__lookupGetter__"; "__lookupSetter__"; "isPrototypeOf";
   "propertyIsEnumerable"; "toString"; "valueOf"; "__proto__";
   "toLocaleString"].

(** [listenersOf(type, priority)]: the array of the bucket, created empty
    when the bucket is absent.  Returns the array and the emitter.  This is
    the code on the keys that are not [inherited]. *)
Definition listenersOf (type : string) (priority : EventPriority) (em : EventEmitter)
    : list (option Listener) * EventEmitter :=
  match tier priority em !! type with
  | Some ls => (ls, em)
  | None => ([], set_bucket type priority [] em)
  end.

(** [array.push(listener)]: the extended array and its new length. *)
Definition push (ls : list (option Listener)) (listener : Listener)
    : nat * list (option Listener) :=
  (length (ls ++ [Some listener]), ls ++ [Some listener]).

(** [delete array[i]]: slot [i] becomes a hole; nothing happens when [i] is
    not an index of the array. *)
Definition delete_slot (i : nat) (ls : list (option Listener)) : list (option Listener) :=
  <[i := None]> ls.

(** [on([type, priority = "normal"], listener)]: the cleanup function and
    the emitter. *)
Definition on (key : string * option EventPriority) (listener : Listener)
    (em : EventEmitter) : Handle * EventEmitter :=
  let type := key.1 in
  let priority := default normal key.2 in
  let '(ls, em1) := listenersOf type priority em in
  let '(i, ls') := push ls listener in
  (mkHandle type priority i, set_bucket type priority ls' em1).

(** Calling a cleanup function. *)
Definition cleanup (off : Handle) (em : EventEmitter) : EventEmitter :=
  let '(ls, em1) := listenersOf (h_type off) (h_priority off) em in
  set_bucket (h_type off) (h_priority off) (delete_slot (h_index off) ls) em1.

(** [once([type, priority = "normal"], listener)].  The arrow function
    captures [off], the very cleanup function that [on] returns for it:
    its index is the length of the bucket after the push. *)
Definition once (key : string * option EventPriority) (listener : Listener)
    (em : EventEmitter) : Handle * EventEmitter :=
  let type := key.1 in
  let priority := default normal key.2 in
  let off := mkHandle type priority (S (length (bucket type priority em))) in
  on (type, Some priority) (OnceFn off listener) em.

(** The array that [emit] and [emitSync] iterate:
    [[...listenersOf(type, "before"), ...listenersOf(type, "normal"),
      ...listenersOf(type, "after")]].  A hole is spread as [undefined]. *)
Definition snapshot (type : string) (em : EventEmitter)
    : list (option Listener) * EventEmitter :=
  let '(b, em1) := listenersOf type before em in
  let '(n, em2) := listenersOf type normal em1 in
  let '(a, em3) := listenersOf type after em2 in
  (b ++ n ++ a, em3).

(** ** Emission *)

(** One call [listener(data)] made by the dispatcher. *)
Record Call : Type := mkCall {
  target : Listener;
  arg : Value;
  completion : Completion
}.

(** The outcome of [emitSync], and of the promise of [emit]: a returned
    (fulfilled) value or a thrown (rejected) one. *)
Inductive EmitResult : Type :=
  | Returned (v : Value)
  | Raised (e : Value).

(** [listener(data)] in [emitSync]: only a synchronous throw leaves the
    loop; a promise is a value like any other and is dropped. *)
Definition thrown (c : Completion) : option Value :=
  match c with
  | Throws e => Some e
  | _ => None
  end.

(** [await listener(data)] in [emit]: a synchronous throw and the rejection
    of the awaited promise both leave the loop. *)
Definition awaited (c : Completion) : option Value :=
  match c with
  | Throws e => Some e
  | ReturnsPromise (Rejected e) => Some e
  | _ => None
  end.

(** [catch (e) { if (e instanceof Cancelled) return e; throw e }], and
    [undefined] when the loop completed. *)
Definition catch (e : option Value) : EmitResult :=
  match e with
  | None => Returned VUndefined
  | Some (VCancelled reason) => Returned (VCancelled reason)
  | Some e => Raised e
  end.

Section Emitter.

(** The rest of the program's state. *)
Variable World : Type.

Definition State : Type := EventEmitter * World.

(** The bodies of the caller's function objects.  For [emit] the
    transformer of a listener includes what happens until its promise
    settles and the dispatcher resumes. *)
Variable user : nat -> Value -> State -> Completion * State.

(** [l(x)] *)
Fixpoint call (l : Listener) (x : Value) (s : State) : Completion * State :=
  match l with
  | Fn id => user id x s
  | OnceFn off listener =>
      let s1 : State := (cleanup off s.1, s.2) in
      match call listener x s1 with
      | (Throws e, s2) => (Throws e, s2)
      | (_, s2) => (Returns VUndefined, s2)
      end
  end.

(** [for (const listener of array) listener(data)], where [leaves] says
    which completions leave the loop.  Returns the value thrown out of
    the loop, if any, the calls made, and the state. *)
Fixpoint for_of (leaves : Completion -> option Value)
    (array : list (option Listener)) (data : Value) (s : State)
    : option Value * list Call * State :=
  match array with
  | [] => (None, [], s)
  | None :: _ => (Some VTypeError, [], s)
  | Some listener :: rest =>
      let '(c, s1) := call listener data s in
      match leaves c with
      | Some e => (Some e, [mkCall listener data c], s1)
      | None =>
          let '(e, calls, s2) := for_of leaves rest data s1 in
          (e, mkCall listener data c :: calls, s2)
      end
  end.

(** [emitSync(type, data)] *)
Definition emitSync (type : string) (data : Value) (s : State)
    : EmitResult * list Call * State :=
  let '(array, em) := snapshot type s.1 in
  let '(e, calls, s') := for_of thrown array data (em, s.2) in
  (catch e, calls, s').

(** [emit(type, data)], with the outcome of its promise *)
Definition emit (type : string) (data : Value) (s : State)
    : EmitResult * list Call * State :=
  let '(array, em) := snapshot type s.1 in
  let '(e, calls, s') := for_of awaited array data (em, s.2) in
  (catch e, calls, s').

End Emitter.

Arguments call {World} user l x s.
Arguments for_of {World} user leaves array data s.
Arguments emitSync {World} user type data s.
Arguments emit {World} user type data s.

(** ** Registrations and traces *)

(** A series of calls of [on], in order. *)
Definition register_all (regs : list ((string * option EventPriority) * Listener))
    (em : EventEmitter) : EventEmitter :=
  fold_left (λ em r, (on r.1 r.2 em).2) regs em.

(** The listeners that a series of calls of [on] registers for a type and a
    priority, in the order of the calls. *)
Definition registered (type : string) (priority : EventPriority)
    (regs : list ((string * option EventPriority) * Listener)) : list Listener :=
  map snd
    (filter (λ r, r.1.1 = type ∧ default normal r.1.2 = priority) regs).

(** The elements of the iterated array that a list of calls went through. *)
Definition targets (calls : list Call) : list (option Listener) :=
  map (λ c, Some (target c)) calls.

(** The three ways in which the loop over [array] ends: it goes through the
    whole array; a call leaves it with the value [e]; or it reaches a hole,
    and calling [undefined] raises a [TypeError]. *)
Inductive Run (leaves : Completion -> option Value) (array : list (option Listener))
    : option Value -> list Call -> Prop :=
  | run_completed calls :
      targets calls = array ->
      Forall (λ c, leaves (completion c) = None) calls ->
      Run leaves array None calls
  | run_left calls c e rest :
      leaves (completion c) = Some e ->
      Forall (λ c, leaves (completion c) = None) calls ->
      array = targets (calls ++ [c]) ++ rest ->
      Run leaves array (Some e) (calls ++ [c])
  | run_hole calls rest :
      Forall (λ c, leaves (completion c) = None) calls ->
      array = targets calls ++ None :: rest ->
      Run leaves array (Some VTypeError) calls.

(** ** The claims of the specification that the code does not meet, as the
    specification words them *)

Module Spec.

(** A returned value that replaces the payload: any value but [undefined]
    and a cancellation signal. *)
Definition replacement (v : Value) : bool :=
  match v with
  | VUndefined | VCancelled _ => false
  | _ => true
  end.

(** The payload after a listener completed. *)
Definition replaced (current : Value) (c : Completion) : Value :=
  match c with
  | Returns v => if replacement v then v else current
  | _ => current
  end.

(** The listeners of a type that the registry holds. *)
Definition present (type : string) (em : EventEmitter) : list (option Listener) :=
  bucket type before em ++ bucket type normal em ++ bucket type after em.

(** Removal observed by an emission in progress, for the removals that
    the first listener makes: every listener called after the first one
    is still in the registry [em1] that the first one leaves. *)
Definition removal_observed (type : string) (em1 : EventEmitter)
    (calls : list Call) : Prop :=
  ∀ c, c ∈ tail calls → Some (target c) ∈ present type em1.

(** Payload chaining: every listener receives the payload as the
    listeners before it left it. *)
Fixpoint chained (current : Value) (calls : list Call) : Prop :=
  match calls with
  | [] => True
  | c :: rest => arg c = current ∧ chained (replaced current (completion c)) rest
  end.

(** The payload that the result of an emission carries. *)
Definition final_payload (data : Value) (calls : list Call) : Value :=
  fold_left (λ current c, replaced current (completion c)) calls data.


(** A failure raised by the body of a listener: a throw, or, for a
    listener that is an async function, the rejection of its promise. *)
Definition raised (c : Completion) : option Value :=
  match c with
  | Throws e => Some e
  | ReturnsPromise (Rejected e) => Some e
  | _ => None
  end.

(** Any failure raised by a listener that is no cancellation signal is
    thrown to the caller of the emission, and that listener is the last
    one called. *)
Definition failure_propagates (res : EmitResult) (calls : list Call) : Prop :=
  ∀ c e, c ∈ calls → raised (completion c) = Some e →
    (∀ reason, e ≠ VCancelled reason) →
    res = Raised e ∧ last calls = Some c.

End Spec.

(** ** Scenarios *)

Module Scenario.

(** Listener 0 returns the replacement payload [0]; the others return
    nothing. *)
Definition replacing (id : nat) (x : Value) (s : EventEmitter * unit)
    : Completion * (EventEmitter * unit) :=
  match id with
  | 0 => (Returns (VNum 0), s)
  | _ => (Returns VUndefined, s)
  end.


(** Listener 0 throws [new Cancelled("stop")]; listener 2 throws the
    string [boom]. *)
Definition throwing (id : nat) (x : Value) (s : EventEmitter * unit)
    : Completion * (EventEmitter * unit) :=
  match id with
  | 0 => (Throws (VCancelled (Some "stop")), s)
  | 2 => (Throws (VStr "boom"), s)
  | _ => (Returns VUndefined, s)
  end.

(** Listener 0 is an async function that throws the string [boom]: it
    returns a promise rejected with it. *)
Definition rejecting (id : nat) (x : Value) (s : EventEmitter * unit)
    : Completion * (EventEmitter * unit) :=
  match id with
  | 0 => (ReturnsPromise (Rejected (VStr "boom")), s)
  | _ => (Returns VUndefined, s)
  end.

(** Every listener returns nothing and counts its runs in the world. *)
Definition counting (id : nat) (x : Value) (s : EventEmitter * nat)
    : Completion * (EventEmitter * nat) :=
  (Returns VUndefined, (s.1, S s.2)).

(** Two listeners on one bucket:
    [offA = on(["a"], A); offB = on(["a"], B)]. *)
Definition two : EventEmitter :=
  register_all [(("a", None), Fn 0); (("a", None), Fn 1)] new_emitter.

(** The scenario of the specification: A (listener 1) on [before], then
    B (listener 0) and C (listener 3) on [normal], D (listener 4) on
    [after]. *)
Definition abcd : EventEmitter :=
  register_all [(("a", Some before), Fn 1); (("a", None), Fn 0);
                (("a", None), Fn 3); (("a", Some after), Fn 4)] new_emitter.

(** Listener 2, then listener 1, on one bucket. *)
Definition two' : EventEmitter :=
  register_all [(("a", None), Fn 2); (("a", None), Fn 1)] new_emitter.

(** [once(["a"], A); on(["a"], B); on(["a"], C)], with A, B and C the
    listeners 0, 1 and 2. *)
Definition once_then_two : EventEmitter :=
  register_all [(("a", None), Fn 1); (("a", None), Fn 2)]
    (once ("a", None) (Fn 0) new_emitter).2.

(** [once(["a"], L)] on a new emitter, [L] being listener 0. *)
Definition with_once : EventEmitter := (once ("a", None) (Fn 0) new_emitter).2.

Definition offA : Handle := (on ("a", None) (Fn 0) new_emitter).1.

Definition offB : Handle :=
  (on ("a", None) (Fn 1) (on ("a", None) (Fn 0) new_emitter).2).1.

(** Listener 0 calls [offA] and [offB]; listener 1 returns nothing;
    listener 2 registers listener 3 on the bucket. *)
Definition mutating (id : nat) (x : Value) (s : EventEmitter * unit)
    : Completion * (EventEmitter * unit) :=
  match id with
  | 0 => (Returns VUndefined, (cleanup offB (cleanup offA s.1), s.2))
  | 2 => (Returns VUndefined, ((on ("a", None) (Fn 3) s.1).2, s.2))
  | _ => (Returns VUndefined, s)
  end.

End Scenario.

(** ** Forwarding listeners *)

(** What a function that returns the result of [emitSync] does. *)
Definition returned_by (res : EmitResult) : Completion :=
  match res with
  | Returned v => Returns v
  | Raised e => Throws e
  end.

(** What a function that returns the promise of [emit] does. *)
Definition promised_by (res : EmitResult) : Completion :=
  match res with
  | Returned v => ReturnsPromise (Fulfilled v)
  | Raised e => ReturnsPromise (Rejected e)
  end.

Section Reemit.

Variable World : Type.
Variable user : nat -> Value -> State World -> Completion * State World.

(** [reemitSync(type)]: the function [(data) => this.emitSync(type, data)],
    on the state in which [this] is the emitter. *)
Definition reemitSync (type : string) (data : Value) (s : State World)
    : Completion * State World :=
  let '(res, _, s') := emitSync user type data s in
  (returned_by res, s').

(** [reemit(type)]: the function [(data) => this.emit(type, data)], with
    the state in which its promise settles. *)
Definition reemit (type : string) (data : Value) (s : State World)
    : Completion * State World :=
  let '(res, _, s') := emit user type data s in
  (promised_by res, s').

End Reemit.

Arguments reemitSync {World} user type data s.
Arguments reemit {World} user type data s.

(** Calling a series of cleanup functions, the last of the list first. *)
Definition cleanup_all (offs : list Handle) (em : EventEmitter) : EventEmitter :=
  foldr cleanup em offs.

(** The operations on the registry: [on], [once] and the call of a cleanup
    function. *)
Inductive Operation : Type :=
  | Register (key : string * option EventPriority) (listener : Listener)
  | RegisterOnce (key : string * option EventPriority) (listener : Listener)
  | Unregister (off : Handle).

Definition perform (op : Operation) (em : EventEmitter) : EventEmitter :=
  match op with
  | Register key listener => (on key listener em).2
  | RegisterOnce key listener => (once key listener em).2
  | Unregister off => cleanup off em
  end.

(** A series of operations, in order. *)
Definition perform_all (ops : list Operation) (em : EventEmitter) : EventEmitter :=
  fold_left (λ em op, perform op em) ops em.

(** More scenarios. *)
Module Forwarding.

(** Listener 1 throws [new Cancelled("stop")], listener 2 throws the string
    [boom], every other listener returns nothing. *)
Definition base (id : nat) (x : Value) (s : EventEmitter * unit)
    : Completion * (EventEmitter * unit) :=
  match id with
  | 1 => (Throws (VCancelled (Some "stop")), s)
  | 2 => (Throws (VStr "boom"), s)
  | _ => (Returns VUndefined, s)
  end.

(** Listener 0 is [this.reemitSync("a")], listener 5 is [this.reemit("a")],
    listener 6 returns a promise rejected with a [Cancelled]. *)
Definition bodies (id : nat) (x : Value) (s : EventEmitter * unit)
    : Completion * (EventEmitter * unit) :=
  match id with
  | 0 => reemitSync base "a" x s
  | 5 => reemit base "a" x s
  | 6 => (ReturnsPromise (Rejected (VCancelled None)), s)
  | _ => base id x s
  end.

(** [on(["b"], this.reemitSync("a")); on(["b"], L3); on(["a"], L1)] *)
Definition relay : EventEmitter :=
  register_all [(("b", None), Fn 0); (("b", None), Fn 3); (("a", None), Fn 1)]
    new_emitter.

(** [on(["b"], this.reemit("a")); on(["b"], L3); on(["a"], L2)] *)
Definition relay_async : EventEmitter :=
  register_all [(("b", None), Fn 5); (("b", None), Fn 3); (("a", None), Fn 2)]
    new_emitter.

(** [offA = on(["a"], A); on(["a"], B); on(["a"], C); offA()]: the slot of
    [B] is a hole. *)
Definition holed : EventEmitter :=
  let r := on ("a", None) (Fn 3) new_emitter in
  cleanup r.1 (register_all [(("a", None), Fn 4); (("a", None), Fn 7)] r.2).

End Forwarding.

(** ** The registry: buckets *)

Lemma bucket_set_bucket t p type priority ls em :
  bucket t p (set_bucket type priority ls em) =
    if decide (t = type ∧ p = priority) then ls else bucket t p em.
Proof.
  unfold bucket.
  destruct priority, p; simpl; case_decide as H;
    try (destruct H; discriminate); try reflexivity.
  - destruct H as [-> _]. by rewrite lookup_insert_eq.
  - rewrite lookup_insert_ne; [done | naive_solver].
  - destruct H as [-> _]. by rewrite lookup_insert_eq.
  - rewrite lookup_insert_ne; [done | naive_solver].
  - destruct H as [-> _]. by rewrite lookup_insert_eq.
  - rewrite lookup_insert_ne; [done | naive_solver].
Qed.

Lemma listenersOf_array type priority em :
  (listenersOf type priority em).1 = bucket type priority em.
Proof. unfold listenersOf, bucket. by destruct (tier priority em !! type). Qed.

(** [listenersOf] creates at most an empty bucket: no bucket changes its
    listeners. *)
Lemma bucket_listenersOf t p type priority em :
  bucket t p (listenersOf type priority em).2 = bucket t p em.
Proof.
  unfold listenersOf.
  destruct (tier priority em !! type) eqn:E; simpl; [done |].
  rewrite bucket_set_bucket. case_decide as H; [| done].
  destruct H as [-> ->]. unfold bucket. by rewrite E.
Qed.

Lemma snapshot_array type em :
  (snapshot type em).1 =
    bucket type before em ++ bucket type normal em ++ bucket type after em.
Proof.
  unfold snapshot.
  pose proof (listenersOf_array type before em) as Hb.
  pose proof (bucket_listenersOf type normal type before em) as Hbn.
  pose proof (bucket_listenersOf type after type before em) as Hba.
  destruct (listenersOf type before em) as [b em1]. simpl in *.
  pose proof (listenersOf_array type normal em1) as Hn.
  pose proof (bucket_listenersOf type after type normal em1) as Hna.
  destruct (listenersOf type normal em1) as [n em2]. simpl in *.
  pose proof (listenersOf_array type after em2) as Ha.
  destruct (listenersOf type after em2) as [a em3]. simpl in *.
  congruence.
Qed.

Lemma bucket_snapshot t p type em :
  bucket t p (snapshot type em).2 = bucket t p em.
Proof.
  unfold snapshot.
  pose proof (bucket_listenersOf t p type before em) as H1.
  destruct (listenersOf type before em) as [b em1]. simpl in *.
  pose proof (bucket_listenersOf t p type normal em1) as H2.
  destruct (listenersOf type normal em1) as [n em2]. simpl in *.
  pose proof (bucket_listenersOf t p type after em2) as H3.
  destruct (listenersOf type after em2) as [a em3]. simpl in *.
  congruence.
Qed.

Lemma bucket_on t p key listener em :
  bucket t p (on key listener em).2 =
    if decide (t = key.1 ∧ p = default normal key.2)
    then bucket t p em ++ [Some listener] else bucket t p em.
Proof.
  unfold on, push.
  pose proof (listenersOf_array key.1 (default normal key.2) em) as Ha.
  pose proof (bucket_listenersOf t p key.1 (default normal key.2) em) as Hb.
  destruct (listenersOf key.1 (default normal key.2) em) as [ls em1].
  simpl in *. rewrite bucket_set_bucket.
  case_decide as H; [| done]. destruct H as [-> ->]. by rewrite Ha.
Qed.

Lemma bucket_cleanup t p off em :
  bucket t p (cleanup off em) =
    if decide (t = h_type off ∧ p = h_priority off)
    then delete_slot (h_index off) (bucket t p em) else bucket t p em.
Proof.
  unfold cleanup.
  pose proof (listenersOf_array (h_type off) (h_priority off) em) as Ha.
  pose proof (bucket_listenersOf t p (h_type off) (h_priority off) em) as Hb.
  destruct (listenersOf (h_type off) (h_priority off) em) as [ls em1].
  simpl in *. rewrite bucket_set_bucket.
  case_decide as H; [| done]. destruct H as [-> ->]. by rewrite Ha.
Qed.

(** The index that the cleanup function of [on] captures is the length of
    the array after the push, one past the slot of the listener. *)
Lemma on_handle key listener em :
  (on key listener em).1 =
    mkHandle key.1 (default normal key.2)
      (S (length (bucket key.1 (default normal key.2) em))).
Proof.
  unfold on, push.
  pose proof (listenersOf_array key.1 (default normal key.2) em) as Ha.
  destruct (listenersOf key.1 (default normal key.2) em) as [ls em1].
  simpl in *. subst ls. f_equal. rewrite length_app. simpl. lia.
Qed.

(** The function [off] that the listener of [once] calls is the cleanup
    function that [once] returns. *)
Lemma once_handle key listener em :
  ∃ em', once key listener em = ((on key listener em).1, em') ∧
    ∀ t p, bucket t p em' =
      if decide (t = key.1 ∧ p = default normal key.2)
      then bucket t p em ++ [Some (OnceFn (on key listener em).1 listener)]
      else bucket t p em.
Proof.
  unfold once. rewrite (on_handle key listener em).
  set (h := mkHandle _ _ _).
  exists (on (key.1, Some (default normal key.2)) (OnceFn h listener) em).2.
  split.
  - rewrite (surjective_pairing (on _ (OnceFn h listener) em)).
    f_equal. by rewrite on_handle.
  - intros t p. by rewrite bucket_on.
Qed.

(** ** The loop of the dispatcher *)

Section Dispatch.

Context {World : Type}.
Variable user : nat -> Value -> EventEmitter * World -> Completion * (EventEmitter * World).
Variable leaves : Completion -> option Value.

Lemma for_of_run array data s :
  Run leaves array (for_of user leaves array data s).1.1
    (for_of user leaves array data s).1.2.
Proof.
  revert s. induction array as [| [l |] rest IH]; intros s; simpl.
  - by apply run_completed.
  - destruct (call user l data s) as [c s1].
    destruct (leaves c) as [e |] eqn:El; simpl.
    + by apply (run_left leaves _ [] (mkCall l data c) e rest).
    + specialize (IH s1).
      destruct (for_of user leaves rest data s1) as [[e calls] s2].
      simpl in *. inversion IH as [? Ht Hf | calls0 c0 e0 rest0 Hl Hf Ha | ? rest0 Hf Ha]; subst.
      * apply run_completed; [done | by constructor].
      * apply (run_left leaves _ (mkCall l data c :: calls0) c0 e0 rest0);
          [done | by constructor | done].
      * apply (run_hole leaves _ (mkCall l data c :: _) rest0);
          [by constructor | done].
  - by apply (run_hole leaves _ [] rest).
Qed.

(** Every call of the loop passes [data]. *)
Lemma for_of_arg array data s :
  Forall (λ c, arg c = data) (for_of user leaves array data s).1.2.
Proof.
  revert s. induction array as [| [l |] rest IH]; intros s; simpl; try done.
  destruct (call user l data s) as [c s1].
  destruct (leaves c) as [e |]; simpl.
  - by repeat constructor.
  - specialize (IH s1).
    destruct (for_of user leaves rest data s1) as [[e calls] s2].
    by constructor.
Qed.

(** The loop over two arrays in a row. *)
Lemma for_of_app xs ys data s :
  for_of user leaves (xs ++ ys) data s =
    match for_of user leaves xs data s with
    | (None, calls1, s1) =>
        let '(e, calls2, s2) := for_of user leaves ys data s1 in
        (e, calls1 ++ calls2, s2)
    | r => r
    end.
Proof.
  revert s. induction xs as [| [l |] rest IH]; intros s; simpl.
  - by destruct (for_of user leaves ys data s) as [[e calls] s2].
  - destruct (call user l data s) as [c s1].
    destruct (leaves c) as [e |]; [done |].
    rewrite IH.
    destruct (for_of user leaves rest data s1) as [[[e1 |] calls1] s2]; [done |].
    by destruct (for_of user leaves ys data s2) as [[e2 calls2] s3].
  - done.
Qed.

(** A loop over listeners that leave the emitter alone leaves it alone. *)
Lemma for_of_frame array data s :
  (∀ l, Some l ∈ array → ∀ x st, (call user l x st).2.1 = st.1) →
  (for_of user leaves array data s).2.1 = s.1.
Proof.
  revert s. induction array as [| [l |] rest IH]; intros s H; simpl; try done.
  pose proof (H l ltac:(left) data s) as Hl.
  destruct (call user l data s) as [c s1]. simpl in Hl.
  destruct (leaves c) as [e |]; simpl; [done |].
  assert (Hrest : ∀ l0, Some l0 ∈ rest → ∀ x st, (call user l0 x st).2.1 = st.1).
  { intros l0 Hin. apply H. by right. }
  specialize (IH s1 Hrest).
  destruct (for_of user leaves rest data s1) as [[e calls] s2].
  simpl in *. congruence.
Qed.

End Dispatch.

(** ** Consequences of the shape of a run *)

Lemma Run_prefix leaves array e calls :
  Run leaves array e calls → targets calls `prefix_of` array.
Proof.
  intros [calls' Ht _ | calls' c e' rest _ _ -> | calls' rest _ ->].
  - by rewrite Ht.
  - by exists rest.
  - by exists (None :: rest).
Qed.

Lemma Run_completed leaves array calls :
  Run leaves array None calls → targets calls = array.
Proof. by inversion 1. Qed.

Lemma Run_not_left leaves array e calls :
  Run leaves array e calls →
  Forall (λ c, leaves (completion c) = None) calls →
  None ∉ array → e = None.
Proof.
  intros [calls' Ht _ | calls' c e' rest Hl _ -> | calls' rest _ ->] Hf Hn.
  - done.
  - apply Forall_app in Hf as [_ Hc]. rewrite Forall_singleton in Hc. congruence.
  - exfalso. apply Hn. apply elem_of_app. right. left.
Qed.

(** A call that leaves the loop is the last call, and its value is the one
    thrown out of the loop. *)
Lemma Run_leaves leaves array e calls c v :
  Run leaves array e calls → c ∈ calls → leaves (completion c) = Some v →
  e = Some v ∧ ∃ calls0 rest, calls = calls0 ++ [c] ∧ array = targets calls ++ rest.
Proof.
  intros [calls' Ht Hf | calls' c' e' rest Hl Hf -> | calls' rest Hf ->] Hin Hv.
  - rewrite Forall_forall in Hf. specialize (Hf c Hin). congruence.
  - apply elem_of_app in Hin as [Hin | Hin].
    + rewrite Forall_forall in Hf. specialize (Hf c Hin). congruence.
    + apply list_elem_of_singleton in Hin as ->.
      split; [congruence |]. by exists calls', rest.
  - rewrite Forall_forall in Hf. specialize (Hf c Hin). congruence.
Qed.



Lemma catch_undefined e : catch e = Returned VUndefined ↔ e = None.
Proof.
  split; [| by intros ->].
  destruct e as [[] |]; simpl; intros H; by inversion H.
Qed.

(** ** [emitSync] and [emit] as the loop over the array built at the call *)

Section Emission.

Context {World : Type}.
Variable user : nat -> Value -> EventEmitter * World -> Completion * (EventEmitter * World).

Lemma emitSync_for_of type data s :
  emitSync user type data s =
    let r := for_of user thrown (snapshot type s.1).1 data ((snapshot type s.1).2, s.2) in
    (catch r.1.1, r.1.2, r.2).
Proof.
  unfold emitSync. destruct (snapshot type s.1) as [array em]. simpl.
  by destruct (for_of user thrown array data (em, s.2)) as [[e calls] s'].
Qed.

Lemma emit_for_of type data s :
  emit user type data s =
    let r := for_of user awaited (snapshot type s.1).1 data ((snapshot type s.1).2, s.2) in
    (catch r.1.1, r.1.2, r.2).
Proof.
  unfold emit. destruct (snapshot type s.1) as [array em]. simpl.
  by destruct (for_of user awaited array data (em, s.2)) as [[e calls] s'].
Qed.

End Emission.

(** ** Registration order *)

Lemma registered_cons type priority r regs :
  registered type priority (r :: regs) =
    if decide (r.1.1 = type ∧ default normal r.1.2 = priority)
    then r.2 :: registered type priority regs
    else registered type priority regs.
Proof.
  unfold registered. rewrite filter_cons. by case_decide.
Qed.

(** A bucket holds its listeners in the order of the calls of [on]. *)
Lemma bucket_register_all type priority regs em :
  bucket type priority (register_all regs em) =
    bucket type priority em ++ map Some (registered type priority regs).
Proof.
  revert em. induction regs as [| r regs IH]; intros em.
  - simpl. by rewrite app_nil_r.
  - unfold register_all in *. simpl. rewrite IH, bucket_on, registered_cons.
    destruct (decide (type = r.1.1 ∧ priority = default normal r.1.2)) as [[H1 H2] | H].
    + rewrite decide_True by done. by rewrite <- app_assoc.
    + rewrite decide_False; [done |]. intros [H1 H2]. by apply H.
Qed.

Lemma bucket_new_emitter type priority : bucket type priority new_emitter = [].
Proof. by destruct priority. Qed.

(** ** Cleanup functions *)

(** Called right after the registration, the cleanup function that [on]
    returns finds no slot at its index. *)
Lemma cleanup_after_on key listener em t p :
  bucket t p (cleanup (on key listener em).1 (on key listener em).2) =
    bucket t p (on key listener em).2.
Proof.
  rewrite bucket_cleanup, on_handle. simpl.
  case_decide as H; [| done]. destruct H as [-> ->].
  rewrite bucket_on. rewrite decide_True by done.
  unfold delete_slot. apply list_insert_ge.
  rewrite length_app. simpl. lia.
Qed.

Lemma set_bucket_twice type priority ls1 ls2 em :
  set_bucket type priority ls1 (set_bucket type priority ls2 em) =
    set_bucket type priority ls1 em.
Proof. destruct priority; simpl; by rewrite insert_insert_eq. Qed.

Lemma cleanup_set_bucket off em :
  cleanup off em =
    set_bucket (h_type off) (h_priority off)
      (delete_slot (h_index off) (bucket (h_type off) (h_priority off) em)) em.
Proof.
  unfold cleanup, listenersOf, bucket.
  destruct (tier (h_priority off) em !! h_type off) as [ls |]; simpl; [done |].
  by rewrite set_bucket_twice.
Qed.

(** Two calls in a row of a cleanup function do what one call does. *)
Lemma cleanup_twice off em : cleanup off (cleanup off em) = cleanup off em.
Proof.
  rewrite (cleanup_set_bucket off (cleanup off em)), bucket_cleanup.
  rewrite decide_True by done. rewrite (cleanup_set_bucket off em).
  rewrite set_bucket_twice. unfold delete_slot.
  by rewrite list_insert_insert_eq.
Qed.

(** ** The buckets that an emission creates *)

Lemma tier_listenersOf t p type priority em :
  tier p (listenersOf type priority em).2 !! t =
    if decide (t = type ∧ p = priority)
    then Some (bucket type priority em) else tier p em !! t.
Proof.
  unfold listenersOf, bucket.
  destruct (tier priority em !! type) as [ls |] eqn:E; simpl.
  - case_decide as H; [| done]. destruct H as [-> ->]. by rewrite E.
  - destruct priority, p; simpl in *; case_decide as H;
      try (destruct H; discriminate); try reflexivity.
    + destruct H as [-> _]. by rewrite lookup_insert_eq.
    + rewrite lookup_insert_ne; [done | naive_solver].
    + destruct H as [-> _]. by rewrite lookup_insert_eq.
    + rewrite lookup_insert_ne; [done | naive_solver].
    + destruct H as [-> _]. by rewrite lookup_insert_eq.
    + rewrite lookup_insert_ne; [done | naive_solver].
Qed.

(** Building the iterated array creates the three buckets of the type when
    they are absent, empty, and touches nothing else. *)
Lemma tier_snapshot t p type em :
  tier p (snapshot type em).2 !! t =
    if decide (t = type) then Some (bucket type p em) else tier p em !! t.
Proof.
  unfold snapshot.
  pose proof (tier_listenersOf t p type before em) as H1.
  pose proof (bucket_listenersOf type p type before em) as B1.
  destruct (listenersOf type before em) as [b em1]. simpl in *.
  pose proof (tier_listenersOf t p type normal em1) as H2.
  pose proof (bucket_listenersOf type p type normal em1) as B2.
  destruct (listenersOf type normal em1) as [n em2]. simpl in *.
  pose proof (tier_listenersOf t p type after em2) as H3.
  pose proof (bucket_listenersOf type p type after em2) as B3.
  destruct (listenersOf type after em2) as [a em3]. simpl in *.
  rewrite H3, H2, H1.
  destruct (decide (t = type)) as [-> |].
  - destruct p; repeat case_decide; try congruence;
      match goal with
      | H : ¬ _ |- _ => by destruct H
      | H : _ ∧ _ |- _ => by destruct H
      end.
  - by repeat (rewrite decide_False by (intros [? _]; done)).
Qed.

(** ** Properties of the dispatch *)

Section Claims.

Context {World : Type}.
Variable user : nat -> Value -> EventEmitter * World -> Completion * (EventEmitter * World).

(** C1, as the code has it.  The values that listeners return are not
    used.  In an emission, synchronous or not, of a type that is no
    inherited key, every listener called receives the payload that the
    emission was called with; and when no call leaves the loop (no
    listener throws and, for [emit], no awaited promise is rejected) and
    the array has no hole, the result is [undefined]: it carries no
    payload. *)
Theorem payload_not_replaced type data s :
  type ∉ inherited →
  let array := (snapshot type s.1).1 in
  let sync := emitSync user type data s in
  let async := emit user type data s in
  (Forall (λ c, arg c = data) sync.1.2 ∧
   (Forall (λ c, thrown (completion c) = None) sync.1.2 → None ∉ array →
    sync.1.1 = Returned VUndefined)) ∧
  (Forall (λ c, arg c = data) async.1.2 ∧
   (Forall (λ c, awaited (completion c) = None) async.1.2 → None ∉ array →
    async.1.1 = Returned VUndefined)).
Proof.
  intros _. simpl. rewrite emitSync_for_of, emit_for_of. simpl.
  repeat split; try apply for_of_arg.
  - intros Hf Hn. apply catch_undefined.
    eapply Run_not_left; [apply for_of_run | done | done].
  - intros Hf Hn. apply catch_undefined.
    eapply Run_not_left; [apply for_of_run | done | done].
Qed.


(** X18.  After a series of registrations with [on] on a new emitter, for
    keys that are not inherited, an emission, synchronous or not, calls
    the listeners of the type in the order: those registered with
    [before] in the order of their registration, then those with
    [normal], then those with [after].  The calls made are always a
    prefix of that order, and all of it when no call leaves the loop. *)
Theorem emission_order regs type data (w : World) :
  type ∉ inherited → Forall (λ r, r.1.1 ∉ inherited) regs →
  let order := map Some (registered type before regs ++
                         registered type normal regs ++
                         registered type after regs) in
  let sync := emitSync user type data (register_all regs new_emitter, w) in
  let async := emit user type data (register_all regs new_emitter, w) in
  (targets sync.1.2 `prefix_of` order ∧
   (Forall (λ c, thrown (completion c) = None) sync.1.2 → targets sync.1.2 = order)) ∧
  (targets async.1.2 `prefix_of` order ∧
   (Forall (λ c, awaited (completion c) = None) async.1.2 → targets async.1.2 = order)).
Proof.
  intros _ _. simpl. rewrite emitSync_for_of, emit_for_of. simpl.
  rewrite snapshot_array, !bucket_register_all, !bucket_new_emitter. simpl.
  rewrite !map_app.
  set (order := map Some (registered type before regs) ++ _).
  assert (Hn : None ∉ order).
  { unfold order. rewrite !elem_of_app, !list_elem_of_fmap.
    intros [(l & ? & _) | [(l & ? & _) | (l & ? & _)]]; discriminate. }
  set (em := (snapshot type (register_all regs new_emitter)).2).
  pose proof (for_of_run user thrown order data (em, w)) as Rs.
  pose proof (for_of_run user awaited order data (em, w)) as Ra.
  repeat split.
  - by eapply Run_prefix.
  - intros Hf. eapply Run_completed.
    by rewrite (Run_not_left _ _ _ _ Rs Hf Hn) in Rs.
  - by eapply Run_prefix.
  - intros Hf. eapply Run_completed.
    by rewrite (Run_not_left _ _ _ _ Ra Hf Hn) in Ra.
Qed.

(** C6, as the code has it.  An emission, of a type that is no inherited
    key, calls the listeners of the array that was built when it was
    called.  Whatever the listeners before a listener [l] of that array do
    to the registry, the deletion of the slot of [l] included, when the
    loop goes through them (none of them leaves it, and no hole comes
    before [l]) the emission calls [l] with the payload, in the state
    that they leave; the calls made before are part of the emission as
    they were made. *)
Theorem removal_not_observed type data s pre l post :
  type ∉ inherited →
  (snapshot type s.1).1 = pre ++ Some l :: post →
  let start := ((snapshot type s.1).2, s.2) in
  (∀ calls s1, for_of user thrown pre data start = (None, calls, s1) →
     ∃ rest, (emitSync user type data s).1.2 =
               calls ++ mkCall l data (call user l data s1).1 :: rest) ∧
  (∀ calls s1, for_of user awaited pre data start = (None, calls, s1) →
     ∃ rest, (emit user type data s).1.2 =
               calls ++ mkCall l data (call user l data s1).1 :: rest).
Proof.
  intros _ Ha. simpl. rewrite emitSync_for_of, emit_for_of. simpl.
  rewrite Ha. split; intros calls s1 Hpre; rewrite for_of_app, Hpre; simpl;
    destruct (call user l data s1) as [c s2]; simpl.
  - destruct (thrown c); simpl; [by exists [] |].
    destruct (for_of user thrown post data s2) as [[e rest] s3]. by exists rest.
  - destruct (awaited c); simpl; [by exists [] |].
    destruct (for_of user awaited post data s2) as [[e rest] s3]. by exists rest.
Qed.


(** After a call that does not leave the loop, the next listener of the
    array is called. *)
Lemma Run_next leaves array e calls i c l :
  Run leaves array e calls → calls !! i = Some c →
  leaves (completion c) = None → array !! S i = Some (Some l) →
  ∃ c', calls !! S i = Some c' ∧ target c' = l.
Proof.
  intros R Hi Hc Hl.
  assert (Hlt : (i < length calls)%nat) by (by eapply lookup_lt_Some).
  assert (H : ∃ tail, array = targets calls ++ tail ∧ (S i < length calls)%nat).
  { destruct R as [calls Ht _ | calls0 cl e' rest Hcl _ -> | calls rest _ ->].
    - exists []. rewrite app_nil_r. split; [done |].
      apply lookup_lt_Some in Hl. rewrite <- Ht in Hl.
      unfold targets in Hl. by rewrite length_map in Hl.
    - exists rest. split; [done |]. rewrite length_app in *. simpl in *.
      destruct (decide (i = length calls0)) as [-> | Hne]; [| lia].
      rewrite list_lookup_middle in Hi by done.
      injection Hi as ->. congruence.
    - exists (None :: rest). split; [done |].
      destruct (decide (S i = length calls)) as [Heq | Hne]; [| lia].
      rewrite Heq in Hl.
      rewrite list_lookup_middle in Hl; [discriminate |].
      unfold targets. by rewrite length_map. }
  destruct H as (tail & -> & HS).
  destruct (lookup_lt_is_Some_2 calls (S i) HS) as [c' Hc'].
  exists c'. split; [done |].
  rewrite lookup_app_l in Hl by (unfold targets; by rewrite length_map).
  unfold targets in Hl. rewrite list_lookup_fmap, Hc' in Hl. simpl in Hl.
  congruence.
Qed.

(** C8, as the code has it.  The dispatcher sees what a listener throws
    synchronously and, in [emit], the rejection of the promise that it
    awaits; a promise returned to [emitSync] is a returned value, and
    whatever it settles to [emitSync] goes on to the next listener.
    When a call leaves the loop with a thrown value [e] (for [emit],
    also the rejection of the awaited promise), that call is the last
    one: the listeners after it in the array are not called.  If [e] is a
    [Cancelled], the dispatcher catches it and returns it; otherwise it
    rethrows [e] to its caller (for [emit], it rejects its promise with
    [e]).  No emission ever throws a [Cancelled]. *)
Theorem cancelled_caught_failure_rethrown type data s :
  let array := (snapshot type s.1).1 in
  let sync := emitSync user type data s in
  let async := emit user type data s in
  (∀ c e, c ∈ sync.1.2 → thrown (completion c) = Some e →
     (∃ calls rest, sync.1.2 = calls ++ [c] ∧ array = targets sync.1.2 ++ rest) ∧
     (∀ reason, e = VCancelled reason → sync.1.1 = Returned (VCancelled reason)) ∧
     ((∀ reason, e ≠ VCancelled reason) → sync.1.1 = Raised e)) ∧
  (∀ c e, c ∈ async.1.2 → awaited (completion c) = Some e →
     (∃ calls rest, async.1.2 = calls ++ [c] ∧ array = targets async.1.2 ++ rest) ∧
     (∀ reason, e = VCancelled reason → async.1.1 = Returned (VCancelled reason)) ∧
     ((∀ reason, e ≠ VCancelled reason) → async.1.1 = Raised e)) ∧
  (∀ reason, sync.1.1 ≠ Raised (VCancelled reason) ∧
             async.1.1 ≠ Raised (VCancelled reason)) ∧
  (∀ i c p l, sync.1.2 !! i = Some c → completion c = ReturnsPromise p →
     array !! S i = Some (Some l) →
     ∃ c', sync.1.2 !! S i = Some c' ∧ target c' = l).
Proof.
  simpl. rewrite emitSync_for_of, emit_for_of. simpl.
  pose proof (for_of_run user thrown (snapshot type s.1).1 data
                ((snapshot type s.1).2, s.2)) as Rs.
  pose proof (for_of_run user awaited (snapshot type s.1).1 data
                ((snapshot type s.1).2, s.2)) as Ra.
  assert (Hc : ∀ o reason, catch o ≠ Raised (VCancelled reason)).
  { intros [[| n | str | r |] |] reason; simpl; congruence. }
  split; [| split; [| split]].
  - intros c e Hin Hl.
    destruct (Run_leaves _ _ _ _ _ _ Rs Hin Hl) as [-> Hlast].
    split; [done |]. split.
    + by intros reason ->.
    + intros Hne. destruct e as [| n | str | r |]; simpl; try done.
      by destruct (Hne r).
  - intros c e Hin Hl.
    destruct (Run_leaves _ _ _ _ _ _ Ra Hin Hl) as [-> Hlast].
    split; [done |]. split.
    + by intros reason ->.
    + intros Hne. destruct e as [| n | str | r |]; simpl; try done.
      by destruct (Hne r).
  - intros reason. split; apply Hc.
  - intros i c p l Hi Hp Hl. eapply Run_next; [exact Rs | exact Hi | | exact Hl].
    by rewrite Hp.
Qed.

(** A loop over listeners that keep the listeners of every bucket keeps
    them. *)
Lemma for_of_buckets leaves array data s em0 :
  (∀ l, Some l ∈ array → ∀ x st,
     (∀ t p, bucket t p st.1 = bucket t p em0) →
     ∀ t p, bucket t p (call user l x st).2.1 = bucket t p st.1) →
  (∀ t p, bucket t p s.1 = bucket t p em0) →
  ∀ t p, bucket t p (for_of user leaves array data s).2.1 = bucket t p em0.
Proof.
  revert s. induction array as [| [l |] rest IH]; intros s H Hs; simpl; try done.
  pose proof (H l ltac:(left) data s Hs) as Hl.
  destruct (call user l data s) as [c s1]. simpl in Hl.
  assert (Hs1 : ∀ t p, bucket t p s1.1 = bucket t p em0).
  { intros t p. by rewrite Hl. }
  destruct (leaves c) as [e |]; simpl; [done |].
  assert (Hrest : ∀ l0, Some l0 ∈ rest → ∀ x st,
            (∀ t p, bucket t p st.1 = bucket t p em0) →
            ∀ t p, bucket t p (call user l0 x st).2.1 = bucket t p st.1).
  { intros l0 Hin. apply H. by right. }
  specialize (IH s1 Hrest Hs1).
  by destruct (for_of user leaves rest data s1) as [[e calls] s2].
Qed.

(** C10.  An emission, synchronous or not, whose listeners neither
    register nor remove (each of them, called in a state where the buckets
    hold what they held when the emission was called, leaves every bucket
    with the listeners it holds; it may create buckets, as a listener that
    emits does) leaves every bucket with the listeners it had, in their
    order, whatever its result.  A bucket that the emission creates is
    empty. *)
Theorem emission_frame type data s :
  (∀ l, Some l ∈ (snapshot type s.1).1 → ∀ x st,
     (∀ t p, bucket t p st.1 = bucket t p s.1) →
     ∀ t p, bucket t p (call user l x st).2.1 = bucket t p st.1) →
  let sync := emitSync user type data s in
  let async := emit user type data s in
  ∀ em', em' = sync.2.1 ∨ em' = async.2.1 →
    ∀ t p, bucket t p em' = bucket t p s.1.
Proof.
  intros H. simpl. rewrite emitSync_for_of, emit_for_of. simpl.
  intros em' [-> | ->] t p; apply for_of_buckets; try done;
    intros t' p'; apply bucket_snapshot.
Qed.

End Claims.

(** ** The properties at work, and where the code departs from the
    specification *)

Local Ltac not_in_list :=
  let H := fresh in
  intros H; vm_compute in H;
  repeat (apply elem_of_cons in H as [H | H]; [discriminate H |]);
  by apply elem_of_nil in H.

(** An emission in which listener 0 returns a value: no call leaves the
    loop, and the result is [undefined]. *)
Lemma payload_not_replaced_witness :
  (emitSync Scenario.replacing "a" (VNum 2) (Scenario.two, ())).1.1 = Returned VUndefined.
Proof.
  destruct (payload_not_replaced Scenario.replacing "a" (VNum 2) (Scenario.two, ())
              ltac:(not_in_list)) as [[_ H] _].
  apply H.
  - vm_compute. repeat constructor.
  - not_in_list.
Defined.

(** C1, the claim as specified fails: listener 0 returns the replacement
    payload [0] for the payload [2]; listener 1, called after it, receives
    [2], and the result of the emission does not carry [0]. *)
Lemma payload_chaining_counterexample :
  let r := emitSync Scenario.replacing "a" (VNum 2) (Scenario.two, ()) in
  r.1.2 = [mkCall (Fn 0) (VNum 2) (Returns (VNum 0));
           mkCall (Fn 1) (VNum 2) (Returns VUndefined)] ∧
  ¬ Spec.chained (VNum 2) r.1.2 ∧
  r.1.1 ≠ Returned (Spec.final_payload (VNum 2) r.1.2).
Proof.
  vm_compute. split; [reflexivity |]. split.
  - intros (_ & H & _). discriminate H.
  - discriminate.
Qed.



(** C3, the code departs from the claim.  The listener of [once] calls a
    cleanup function whose index is one past its own slot: after the first
    emission the listener is still in the registry, and the second
    emission runs the body of [L] a second time. *)
Theorem once_listener_runs_twice :
  let r1 := emitSync Scenario.counting "a" (VNum 2) (Scenario.with_once, 0) in
  let r2 := emitSync Scenario.counting "a" (VNum 2) r1.2 in
  bucket "a" normal Scenario.with_once = [Some (OnceFn (mkHandle "a" normal 1) (Fn 0))] ∧
  r1.2.2 = 1 ∧
  bucket "a" normal r1.2.1 = [Some (OnceFn (mkHandle "a" normal 1) (Fn 0))] ∧
  map target r2.1.2 = [OnceFn (mkHandle "a" normal 1) (Fn 0)] ∧
  r2.2.2 = 2.
Proof. by vm_compute. Qed.

(** Four registrations on three priorities, out of order. *)
Lemma emission_order_witness :
  targets (emitSync Scenario.replacing "a" (VNum 2) (Scenario.abcd, ())).1.2 =
    [Some (Fn 1); Some (Fn 0); Some (Fn 3); Some (Fn 4)].
Proof.
  destruct (emission_order Scenario.replacing
              [(("a", Some before), Fn 1); (("a", None), Fn 0);
               (("a", None), Fn 3); (("a", Some after), Fn 4)] "a" (VNum 2) ()
              ltac:(not_in_list)
              ltac:(repeat (constructor; [not_in_list |]); constructor))
    as [[_ H] _].
  apply H. vm_compute. repeat constructor.
Defined.

(** C4, the code departs from the claim.  [delete] leaves a hole in the
    array, which the loop takes for a listener and calls.  After
    [offA = on(["a"], A); on(["a"], B); on(["a"], C); offA()] the bucket
    is [[A, <hole>, C]]: the emission calls [A] and throws a [TypeError],
    and [C], registered on the bucket, is not called.  After
    [once(["a"], A); on(["a"], B); on(["a"], C)] the first emission calls
    the three listeners in order and leaves a hole in the slot of [B];
    the second one calls the listener of [once] and throws, and [C] is
    not called. *)
Theorem listener_behind_hole_not_called :
  let r := emitSync Forwarding.base "a" (VNum 2) (Forwarding.holed, ()) in
  let r1 := emitSync Scenario.counting "a" (VNum 2) (Scenario.once_then_two, 0) in
  let r2 := emitSync Scenario.counting "a" (VNum 2) r1.2 in
  let A := OnceFn (mkHandle "a" normal 1) (Fn 0) in
  bucket "a" normal Forwarding.holed = [Some (Fn 3); None; Some (Fn 7)] ∧
  map target r.1.2 = [Fn 3] ∧ r.1.1 = Raised VTypeError ∧
  bucket "a" normal Scenario.once_then_two = [Some A; Some (Fn 1); Some (Fn 2)] ∧
  map target r1.1.2 = [A; Fn 1; Fn 2] ∧ r1.1.1 = Returned VUndefined ∧
  bucket "a" normal r1.2.1 = [Some A; None; Some (Fn 2)] ∧
  map target r2.1.2 = [A] ∧ r2.1.1 = Raised VTypeError.
Proof. by vm_compute. Qed.

(** C5, the code departs from the claim.  The cleanup function deletes the
    slot whose index is the length of the array after the push, one past
    the listener it was returned for.  Called right after the registration
    it removes nothing and the listener is called by the next emission;
    called after another registration on the bucket, [offA] deletes the
    slot of [B] and leaves [A]. *)
Theorem cleanup_misses_its_listener :
  let r := on ("a", None) (Fn 0) new_emitter in
  r.1 = mkHandle "a" normal 1 ∧
  bucket "a" normal r.2 = [Some (Fn 0)] ∧
  bucket "a" normal (cleanup r.1 r.2) = [Some (Fn 0)] ∧
  map target (emitSync Scenario.counting "a" (VNum 2) (cleanup r.1 r.2, 0)).1.2 = [Fn 0] ∧
  bucket "a" normal Scenario.two = [Some (Fn 0); Some (Fn 1)] ∧
  bucket "a" normal (cleanup Scenario.offA Scenario.two) = [Some (Fn 0); None].
Proof. by vm_compute. Qed.

(** Listener 0 deletes the slot of listener 1, which is called after it. *)
Lemma removal_not_observed_witness :
  ∃ rest, (emitSync Scenario.mutating "a" (VNum 2) (Scenario.two, ())).1.2 =
    [mkCall (Fn 0) (VNum 2) (Returns VUndefined)] ++
    mkCall (Fn 1) (VNum 2) (Returns VUndefined) :: rest.
Proof.
  destruct (removal_not_observed Scenario.mutating "a" (VNum 2) (Scenario.two, ())
              [Some (Fn 0)] (Fn 1) [] ltac:(not_in_list) ltac:(by vm_compute))
    as [H _].
  edestruct H as [rest Hr]; [by vm_compute |].
  exists rest. exact Hr.
Defined.

(** C6, the claim as specified fails: listener 0 calls the cleanup
    functions [offA] and [offB]; when it returns, listener 1 is in no
    bucket any more and has not been called; the emission in progress
    calls it all the same. *)
Lemma removed_listener_called_counterexample :
  let start := ((snapshot "a" Scenario.two).2, ()) in
  let s1 := (call Scenario.mutating (Fn 0) (VNum 2) start).2 in
  let r := emitSync Scenario.mutating "a" (VNum 2) (Scenario.two, ()) in
  Spec.present "a" s1.1 = [Some (Fn 0); None] ∧
  map target r.1.2 = [Fn 0; Fn 1] ∧
  ¬ Spec.removal_observed "a" s1.1 r.1.2.
Proof.
  simpl. split; [by vm_compute |]. split; [by vm_compute |].
  intros H.
  assert (Hin : Some (Fn 1) ∈ Spec.present "a"
            (call Scenario.mutating (Fn 0) (VNum 2)
               ((snapshot "a" Scenario.two).2, ())).2.1).
  { apply (H (mkCall (Fn 1) (VNum 2) (Returns VUndefined))). vm_compute. left. }
  revert Hin. not_in_list.
Qed.


(** Listener 2 registers listener 3 while the emission runs: the emission
    in progress calls the two listeners it started with; the next one
    calls listener 3 as well. *)
Example registration_during_emission :
  let r1 := emitSync Scenario.mutating "a" (VNum 2) (Scenario.two', ()) in
  let r2 := emitSync Scenario.mutating "a" (VNum 2) r1.2 in
  map target r1.1.2 = [Fn 2; Fn 1] ∧
  bucket "a" normal r1.2.1 = [Some (Fn 2); Some (Fn 1); Some (Fn 3)] ∧
  map target r2.1.2 = [Fn 2; Fn 1; Fn 3].
Proof. by vm_compute. Qed.

(** Listener 2 throws a string: the emission throws it to its caller. *)
Lemma cancelled_caught_failure_rethrown_witness :
  (emitSync Scenario.throwing "a" (VNum 2) (Scenario.two', ())).1.1 = Raised (VStr "boom").
Proof.
  destruct (cancelled_caught_failure_rethrown Scenario.throwing "a" (VNum 2)
              (Scenario.two', ())) as [H _].
  destruct (H (mkCall (Fn 2) (VNum 2) (Throws (VStr "boom"))) (VStr "boom"))
    as (_ & _ & Hr).
  - vm_compute. left.
  - reflexivity.
  - apply Hr. intros reason. discriminate.
Defined.

(** The scenario of the specification, with a listener B that throws the
    signal: A runs, B runs and cancels, C and D never run, and the result
    is the signal with its reason. *)
Example cancellation_scenario :
  let r := emitSync Scenario.throwing "a" (VNum 2) (Scenario.abcd, ()) in
  map target r.1.2 = [Fn 1; Fn 0] ∧
  r.1.1 = Returned (VCancelled (Some "stop")) ∧
  emit Scenario.throwing "a" (VNum 2) (Scenario.abcd, ()) = r.
Proof. by vm_compute. Qed.

(** C9, the code departs from the claim.  The index that [offA] captures is
    one past the slot of [A].  The first call of [offA] finds no slot
    there; once [B] is registered on the bucket, its slot is at that
    index, and the second call of [offA] deletes it. *)
Theorem cleanup_second_call_removes_other :
  let r := on ("a", None) (Fn 0) new_emitter in
  let em2 := cleanup r.1 r.2 in
  let em3 := (on ("a", None) (Fn 1) em2).2 in
  bucket "a" normal em2 = [Some (Fn 0)] ∧
  bucket "a" normal em3 = [Some (Fn 0); Some (Fn 1)] ∧
  bucket "a" normal (cleanup r.1 em3) = [Some (Fn 0); None] ∧
  cleanup r.1 em3 ≠ em3.
Proof.
  simpl. split; [by vm_compute |]. split; [by vm_compute |].
  split; [by vm_compute |].
  intros H. apply (f_equal (bucket "a" normal)) in H.
  vm_compute in H. discriminate H.
Qed.

(** C8, the claim as specified fails: listener 0 is an async function
    that throws the string [boom].  [emitSync] does not await its promise:
    it calls listener 1 after it and returns [undefined]; the failure is
    not thrown to its caller. *)
Lemma failure_in_promise_counterexample :
  let r := emitSync Scenario.rejecting "a" (VNum 2) (Scenario.two, ()) in
  r.1.2 = [mkCall (Fn 0) (VNum 2) (ReturnsPromise (Rejected (VStr "boom")));
           mkCall (Fn 1) (VNum 2) (Returns VUndefined)] ∧
  r.1.1 = Returned VUndefined ∧
  ¬ Spec.failure_propagates r.1.1 r.1.2.
Proof.
  simpl. split; [by vm_compute |]. split; [by vm_compute |].
  intros H.
  destruct (H (mkCall (Fn 0) (VNum 2) (ReturnsPromise (Rejected (VStr "boom"))))
              (VStr "boom")) as [Hr _].
  - vm_compute. left.
  - reflexivity.
  - intros reason. discriminate.
  - vm_compute in Hr. discriminate Hr.
Qed.

(** An emission of [b] whose first listener is [this.reemitSync("a")]: the
    forwarded emission creates buckets, is cancelled, and changes the
    listeners of no bucket. *)
Lemma emission_frame_witness :
  bucket "a" normal
    (emitSync Forwarding.bodies "b" (VNum 2) (Forwarding.relay, ())).2.1 =
    bucket "a" normal Forwarding.relay.
Proof.
  assert (H : ∀ l, Some l ∈ (snapshot "b" (Forwarding.relay, ()).1).1 → ∀ x st,
            (∀ t p, bucket t p st.1 = bucket t p (Forwarding.relay, ()).1) →
            ∀ t p, bucket t p (call Forwarding.bodies l x st).2.1 = bucket t p st.1).
  { intros l Hin x st Hst t p. vm_compute in Hin.
    apply elem_of_cons in Hin as [Hin | Hin].
    - injection Hin as ->.
      change (call Forwarding.bodies (Fn 0) x st)
        with (reemitSync Forwarding.base "a" x st).
      unfold reemitSync. rewrite emitSync_for_of. simpl.
      apply for_of_buckets; [| intros t' p'; apply bucket_snapshot].
      intros l' Hin' x' st' _ t' p'.
      rewrite snapshot_array, !Hst in Hin'. vm_compute in Hin'.
      apply elem_of_cons in Hin' as [Hin' | Hin']; [| by apply elem_of_nil in Hin'].
      by injection Hin' as ->.
    - apply elem_of_cons in Hin as [Hin | Hin]; [| by apply elem_of_nil in Hin].
      by injection Hin as ->. }
  apply (emission_frame Forwarding.bodies "b" (VNum 2) (Forwarding.relay, ()) H).
  left. reflexivity.
Defined.

(** ** Further properties of the registry *)

Lemma set_bucket_comm t1 p1 ls1 t2 p2 ls2 em :
  ¬ (t1 = t2 ∧ p1 = p2) →
  set_bucket t1 p1 ls1 (set_bucket t2 p2 ls2 em) =
    set_bucket t2 p2 ls2 (set_bucket t1 p1 ls1 em).
Proof.
  intros H. destruct p1, p2; simpl; try reflexivity;
    (rewrite insert_insert_ne; [reflexivity |]); intros ->; by apply H.
Qed.

Lemma delete_slot_comm i j ls :
  delete_slot i (delete_slot j ls) = delete_slot j (delete_slot i ls).
Proof.
  unfold delete_slot. destruct (decide (i = j)) as [-> |]; [done |].
  by apply list_insert_insert_ne.
Qed.

(** X2.  For a type that is no inherited key, [on] appends the listener to
    the bucket of its type and priority ([normal] when none is given):
    the slots that were there keep their place, every other bucket keeps
    its listeners, and the index that the cleanup function captures is
    the new length of the bucket. *)
Theorem on_appends key listener em :
  key.1 ∉ inherited →
  let type := key.1 in
  let priority := default normal key.2 in
  let r := on key listener em in
  bucket type priority r.2 = bucket type priority em ++ [Some listener] ∧
  (∀ t p, ¬ (t = type ∧ p = priority) → bucket t p r.2 = bucket t p em) ∧
  r.1 = mkHandle type priority (length (bucket type priority r.2)).
Proof.
  intros _. simpl. split; [| split].
  - by rewrite bucket_on, decide_True.
  - intros t p Hne. by rewrite bucket_on, decide_False.
  - rewrite on_handle, bucket_on, decide_True by done.
    f_equal. rewrite length_app. simpl. lia.
Qed.

(** X3.  Called before anything else is registered on the bucket, the
    cleanup function that [on] returns changes no bucket: the listener it
    was returned for is still in the array of the next emission. *)
Theorem cleanup_right_after_on key listener em :
  let r := on key listener em in
  (∀ t p, bucket t p (cleanup r.1 r.2) = bucket t p r.2) ∧
  Some listener ∈ (snapshot key.1 (cleanup r.1 r.2)).1.
Proof.
  simpl. split; [intros t p; apply cleanup_after_on |].
  rewrite snapshot_array, !cleanup_after_on.
  assert (Hin : Some listener ∈
            bucket key.1 (default normal key.2) (on key listener em).2).
  { rewrite bucket_on, decide_True by done. apply elem_of_app. right. left. }
  destruct (default normal key.2); rewrite !elem_of_app; auto.
Qed.

(** X4.  The cleanup function of a registration deletes the slot of the
    listener registered next on the same bucket, and leaves its own. *)
Theorem cleanup_deletes_next_registration key priority' listener listener' em :
  default normal priority' = default normal key.2 →
  let type := key.1 in
  let priority := default normal key.2 in
  let r := on key listener em in
  let r' := on (type, priority') listener' r.2 in
  bucket type priority r'.2 =
    bucket type priority em ++ [Some listener; Some listener'] ∧
  bucket type priority (cleanup r.1 r'.2) =
    bucket type priority em ++ [Some listener; None].
Proof.
  intros Hp. simpl.
  assert (H : bucket key.1 (default normal key.2)
                (on (key.1, priority') listener' (on key listener em).2).2 =
              bucket key.1 (default normal key.2) em ++
                [Some listener; Some listener']).
  { rewrite !bucket_on. simpl. rewrite Hp, !decide_True by done.
    by rewrite <- app_assoc. }
  split; [done |].
  rewrite bucket_cleanup, on_handle. simpl. rewrite decide_True by done.
  rewrite H. unfold delete_slot.
  replace (S (length (bucket key.1 (default normal key.2) em)))
    with (length (bucket key.1 (default normal key.2) em) + 1) by lia.
  by rewrite insert_app_r.
Qed.

(** X5.  A cleanup function only deletes: no bucket changes its length,
    and a listener found in a slot after the call was in that slot
    before. *)
Theorem cleanup_only_deletes off em t p :
  length (bucket t p (cleanup off em)) = length (bucket t p em) ∧
  (∀ i l, bucket t p (cleanup off em) !! i = Some (Some l) →
          bucket t p em !! i = Some (Some l)).
Proof.
  rewrite bucket_cleanup. case_decide; [| done].
  unfold delete_slot. split; [apply length_insert |].
  intros i l Hi. apply list_lookup_insert_Some in Hi as [(_ & ? & _) | [_ ?]];
    [discriminate | done].
Qed.

Lemma cleanup_swap off1 off2 em :
  cleanup off1 (cleanup off2 em) = cleanup off2 (cleanup off1 em).
Proof.
  rewrite (cleanup_set_bucket off1 (cleanup off2 em)).
  rewrite (cleanup_set_bucket off2 (cleanup off1 em)).
  rewrite !bucket_cleanup, !(cleanup_set_bucket _ em).
  destruct (decide (h_type off1 = h_type off2 ∧ h_priority off1 = h_priority off2))
    as [[Ht Hp] | Hne].
  - rewrite Ht, Hp, !decide_True, !set_bucket_twice by done.
    by rewrite delete_slot_comm.
  - rewrite (decide_False (P := h_type off2 = h_type off1 ∧ _))
      by (intros [? ?]; by apply Hne).
    by apply set_bucket_comm.
Qed.

(** X6.  Cleanup functions commute: the emitter after a series of calls
    does not depend on the order of the calls. *)
Theorem cleanup_all_order offs offs' em :
  offs ≡ₚ offs' → cleanup_all offs em = cleanup_all offs' em.
Proof.
  unfold cleanup_all. induction 1 as [| off l l' _ IH | off1 off2 l | l1 l2 l3 _ IH1 _ IH2];
    simpl.
  - done.
  - by rewrite IH.
  - apply cleanup_swap.
  - by rewrite IH1.
Qed.

(** X7.  A cleanup function that has been called is spent as long as only
    cleanup functions are called: calling it again after any series of
    them changes nothing. *)
Theorem cleanup_again_after_cleanups off offs em :
  cleanup off (cleanup_all offs (cleanup off em)) =
    cleanup_all offs (cleanup off em).
Proof.
  unfold cleanup_all. induction offs as [| off' offs IH]; simpl.
  - apply cleanup_twice.
  - by rewrite cleanup_swap, IH.
Qed.

(** X8.  Called before anything else is registered on the bucket, the
    listener that [once] registers stays registered: when the wrapped
    listener leaves the emitter alone, every bucket is after the call as
    it was before, the slot of the listener of [once] included. *)
Theorem once_listener_stays_registered {World} user key listener em x (w : World) :
  (∀ y st, (call user listener y st).2.1 = st.1) →
  let r := once key listener em in
  let type := key.1 in
  let priority := default normal key.2 in
  bucket type priority r.2 =
    bucket type priority em ++ [Some (OnceFn r.1 listener)] ∧
  (∀ t p, bucket t p (call user (OnceFn r.1 listener) x (r.2, w)).2.1 =
          bucket t p r.2).
Proof.
  intros Hl. simpl. unfold once.
  set (off := mkHandle _ _ _).
  set (key' := (key.1, Some (default normal key.2))).
  assert (Hoff : (on key' (OnceFn off listener) em).1 = off) by (by rewrite on_handle).
  rewrite Hoff. split.
  - by rewrite bucket_on, decide_True.
  - intros t p. simpl.
    pose proof (Hl x (cleanup off (on key' (OnceFn off listener) em).2, w)) as H.
    destruct (call user listener x _) as [c s2]. simpl in H.
    assert ((match c with Throws e => (Throws e, s2) | _ => (Returns VUndefined, s2) end).2
            = s2) as -> by (by destruct c).
    rewrite H. rewrite <- Hoff at 1. apply cleanup_after_on.
Qed.

(** ** Further properties of the dispatch *)

Section Loop.

Context {World : Type}.
Variable user : nat -> Value -> EventEmitter * World -> Completion * (EventEmitter * World).

(** Every recorded completion is that of a call of the target. *)
Lemma for_of_completion leaves array data s :
  Forall (λ c, ∃ st, completion c = (call user (target c) (arg c) st).1)
    (for_of user leaves array data s).1.2.
Proof.
  revert s. induction array as [| [l |] rest IH]; intros s; simpl; try done.
  destruct (call user l data s) as [c s1] eqn:E.
  assert (Hc : ∃ st, c = (call user l data st).1) by (exists s; by rewrite E).
  destruct (leaves c); simpl.
  - by repeat constructor.
  - specialize (IH s1).
    destruct (for_of user leaves rest data s1) as [[e calls] s2].
    by constructor.
Qed.

End Loop.

Lemma Run_left_no_hole leaves array v calls :
  Run leaves array (Some v) calls → None ∉ array →
  ∃ calls0 c, calls = calls0 ++ [c] ∧ leaves (completion c) = Some v.
Proof.
  inversion 1 as [| calls0 c e rest Hl Hf Ha | calls0 rest Hf Ha]; subst; intros Hn.
  - by exists calls0, c.
  - exfalso. apply Hn. apply elem_of_app. right. left.
Qed.

Lemma catch_raised o e : catch o = Raised e → o = Some e.
Proof.
  destruct o as [[| n | str | r |] |]; simpl; intros H; by inversion H.
Qed.

Section Extras.

Context {World : Type}.
Variable user : nat -> Value -> EventEmitter * World -> Completion * (EventEmitter * World).

(** X10.  When the array of an emission has a hole and the listeners
    before it do not leave the loop, the emission calls those listeners
    and then throws a [TypeError] to its caller (for [emit], rejects its
    promise with it): the listeners after the hole are not called, and
    the state is the one that the listeners before it leave. *)
Theorem emission_reaches_hole type data s pre post :
  (snapshot type s.1).1 = pre ++ None :: post →
  let start := ((snapshot type s.1).2, s.2) in
  (∀ calls s1, for_of user thrown pre data start = (None, calls, s1) →
     emitSync user type data s = (Raised VTypeError, calls, s1)) ∧
  (∀ calls s1, for_of user awaited pre data start = (None, calls, s1) →
     emit user type data s = (Raised VTypeError, calls, s1)).
Proof.
  intros Ha. simpl. rewrite emitSync_for_of, emit_for_of. simpl. rewrite Ha.
  split; intros calls s1 Hpre; rewrite for_of_app, Hpre; simpl;
    by rewrite app_nil_r.
Qed.

(** X11.  Emitting a type that is no inherited key and has no listener
    calls nothing and returns [undefined], for [emitSync] and for [emit];
    all it does is create the three buckets of the type where they are
    absent. *)
Theorem emission_without_listeners type data s :
  type ∉ inherited →
  bucket type before s.1 = [] → bucket type normal s.1 = [] →
  bucket type after s.1 = [] →
  emitSync user type data s = (Returned VUndefined, [], ((snapshot type s.1).2, s.2)) ∧
  emit user type data s = (Returned VUndefined, [], ((snapshot type s.1).2, s.2)) ∧
  (∀ p, tier p (snapshot type s.1).2 !! type = Some []).
Proof.
  intros _ Hb Hn Ha. rewrite emitSync_for_of, emit_for_of. simpl.
  rewrite snapshot_array, Hb, Hn, Ha. simpl. split; [done |]. split; [done |].
  intros p. rewrite tier_snapshot, decide_True by done. by destruct p; f_equal.
Qed.

(** X14.  On an emitter on which listeners were registered, for keys that
    are not inherited, and no cleanup function was called, an emission of
    such a key throws only what a listener threw:
    when it throws [e] (for [emit], rejects with [e]), its last call is
    the one that left the loop with [e]. *)
Theorem emission_raises_what_listener_threw regs type data (w : World) e :
  type ∉ inherited → Forall (λ r, r.1.1 ∉ inherited) regs →
  let sync := emitSync user type data (register_all regs new_emitter, w) in
  let async := emit user type data (register_all regs new_emitter, w) in
  (sync.1.1 = Raised e →
     ∃ calls c, sync.1.2 = calls ++ [c] ∧ thrown (completion c) = Some e) ∧
  (async.1.1 = Raised e →
     ∃ calls c, async.1.2 = calls ++ [c] ∧ awaited (completion c) = Some e).
Proof.
  intros _ _. simpl. rewrite emitSync_for_of, emit_for_of. simpl.
  set (array := (snapshot type (register_all regs new_emitter)).1).
  set (start := ((snapshot type (register_all regs new_emitter)).2, w)).
  assert (Hn : None ∉ array).
  { unfold array. rewrite snapshot_array, !bucket_register_all, !bucket_new_emitter.
    simpl. rewrite !elem_of_app, !list_elem_of_fmap.
    intros [(l & ? & _) | [(l & ? & _) | (l & ? & _)]]; discriminate. }
  split; intros Hr; apply catch_raised in Hr.
  - pose proof (for_of_run user thrown array data start) as R.
    rewrite Hr in R. by apply Run_left_no_hole in R.
  - pose proof (for_of_run user awaited array data start) as R.
    rewrite Hr in R. by apply Run_left_no_hole in R.
Qed.

End Extras.

(** X13.  The array that an emission of a type iterates does not change
    when a listener is registered, with [on] or [once], for another type,
    or when the cleanup function of another type is called. *)
Theorem other_type_untouched type key listener off em :
  (key.1 ≠ type →
     (snapshot type (on key listener em).2).1 = (snapshot type em).1 ∧
     (snapshot type (once key listener em).2).1 = (snapshot type em).1) ∧
  (h_type off ≠ type →
     (snapshot type (cleanup off em)).1 = (snapshot type em).1).
Proof.
  split.
  - intros Hne. unfold once. rewrite !snapshot_array, !bucket_on. simpl.
    by rewrite !decide_False by (intros [? _]; done).
  - intros Hne. rewrite !snapshot_array, !bucket_cleanup.
    by rewrite !decide_False by (intros [? _]; done).
Qed.

(** ** Forwarding listeners in an emission *)


Lemma promised_by_catch o :
  thrown (promised_by (catch o)) = None ∧
  (∀ r, awaited (promised_by (catch o)) ≠ Some (VCancelled r)).
Proof.
  destruct o as [[| n | str | r |] |]; simpl; split; try done; by intros r'.
Qed.

Section Forward.

Context {World World' : Type}.
Variable outer : nat -> Value -> EventEmitter * World -> Completion * (EventEmitter * World).
Variable user : nat -> Value -> EventEmitter * World' -> Completion * (EventEmitter * World').


(** X16.  A function that [reemit] returned never throws: it returns the
    promise of the forwarded emission.  An [emitSync] that calls it goes
    on to the next listener whatever the forwarded emission does, and an
    [emit] that calls it is never left with a [Cancelled] by that call. *)
Theorem reemit_returns_promise k type type' data s c :
  (∀ x st, ∃ s0, (outer k x st).1 = (reemit user type x s0).1) →
  target c = Fn k →
  (c ∈ (emitSync outer type' data s).1.2 → thrown (completion c) = None) ∧
  (c ∈ (emit outer type' data s).1.2 →
     ∀ r, awaited (completion c) ≠ Some (VCancelled r)).
Proof.
  intros Hk Ht.
  assert (H : ∀ st, thrown (call outer (target c) (arg c) st).1 = None ∧
                ∀ r, awaited (call outer (target c) (arg c) st).1 ≠ Some (VCancelled r)).
  { intros st. rewrite Ht. simpl. destruct (Hk (arg c) st) as [s0 Hs0].
    change (thrown (outer k (arg c) st).1 = None ∧
            ∀ r, awaited (outer k (arg c) st).1 ≠ Some (VCancelled r)).
    rewrite Hs0. unfold reemit. rewrite emit_for_of. simpl. apply promised_by_catch. }
  rewrite emitSync_for_of, emit_for_of. simpl. split; intros Hin.
  - pose proof (for_of_completion outer thrown (snapshot type' s.1).1 data
                  ((snapshot type' s.1).2, s.2)) as F.
    rewrite Forall_forall in F. destruct (F c Hin) as [st ->]. apply H.
  - pose proof (for_of_completion outer awaited (snapshot type' s.1).1 data
                  ((snapshot type' s.1).2, s.2)) as F.
    rewrite Forall_forall in F. destruct (F c Hin) as [st ->]. apply H.
Qed.

End Forward.

(** ** The further properties at work *)

(** A registration on [normal] leaves the [before] bucket of the type. *)
Lemma on_appends_witness :
  bucket "a" before (on ("a", None) (Fn 9) Scenario.two).2 =
    bucket "a" before Scenario.two.
Proof.
  apply (on_appends ("a", None) (Fn 9) Scenario.two ltac:(not_in_list)).
  intros [_ ?]. discriminate.
Defined.

(** [offA = on(["a"], A); on(["a", "normal"], B); offA()] *)
Lemma cleanup_deletes_next_registration_witness :
  bucket "a" normal
    (cleanup (on ("a", None) (Fn 0) new_emitter).1
       (on ("a", Some normal) (Fn 1) (on ("a", None) (Fn 0) new_emitter).2).2) =
    bucket "a" normal new_emitter ++ [Some (Fn 0); None].
Proof.
  apply (cleanup_deletes_next_registration ("a", None) (Some normal)
           (Fn 0) (Fn 1) new_emitter).
  reflexivity.
Defined.

(** [offA(); offB()] and [offB(); offA()] *)
Lemma cleanup_all_order_witness :
  cleanup_all [Scenario.offB; Scenario.offA] Scenario.two =
    cleanup_all [Scenario.offA; Scenario.offB] Scenario.two.
Proof.
  apply (cleanup_all_order [Scenario.offB; Scenario.offA]
           [Scenario.offA; Scenario.offB] Scenario.two).
  apply perm_swap.
Defined.

(** The listener that [offA] leaves in slot 0 was there. *)
Lemma cleanup_only_deletes_witness :
  bucket "a" normal Scenario.two !! 0 = Some (Some (Fn 0)).
Proof.
  apply (cleanup_only_deletes Scenario.offA Scenario.two "a" normal).
  by vm_compute.
Defined.

(** The listener of [once(["a"], L)] after its first call. *)
Lemma once_listener_stays_registered_witness :
  let r := once ("a", None) (Fn 0) new_emitter in
  bucket "a" normal
    (call Scenario.counting (OnceFn r.1 (Fn 0)) (VNum 2) (r.2, 0)).2.1 =
    bucket "a" normal r.2.
Proof.
  apply (once_listener_stays_registered Scenario.counting ("a", None) (Fn 0)
           new_emitter (VNum 2) 0).
  reflexivity.
Defined.

(** An emission on the bucket [[A, <hole>, C]]. *)
Lemma emission_reaches_hole_witness :
  ∃ calls s1,
    emitSync Forwarding.base "a" (VNum 2) (Forwarding.holed, ()) =
      (Raised VTypeError, calls, s1) ∧
    map target calls = [Fn 3].
Proof.
  destruct (emission_reaches_hole Forwarding.base "a" (VNum 2) (Forwarding.holed, ())
              [Some (Fn 3)] [Some (Fn 7)] ltac:(by vm_compute)) as [H _].
  eexists _, _. split; [apply H; reflexivity | reflexivity].
Defined.

(** An emission of a type that nothing listens to. *)
Lemma emission_without_listeners_witness :
  emitSync Scenario.counting "c" (VNum 2) (Scenario.two, 0) =
    (Returned VUndefined, [], ((snapshot "c" Scenario.two).2, 0)).
Proof.
  apply (emission_without_listeners Scenario.counting "c" (VNum 2) (Scenario.two, 0)
           ltac:(not_in_list)); reflexivity.
Defined.

(** A registration for the type [b] and the array of the type [a]. *)
Lemma other_type_untouched_witness :
  (snapshot "a" (on ("b", None) (Fn 9) Scenario.two).2).1 =
    (snapshot "a" Scenario.two).1.
Proof.
  apply (other_type_untouched "a" ("b", None) (Fn 9) Scenario.offA Scenario.two).
  discriminate.
Defined.

(** Listener 2 throws a string. *)
Lemma emission_raises_what_listener_threw_witness :
  ∃ calls c,
    (emitSync Scenario.throwing "a" (VNum 2) (Scenario.two', ())).1.2 = calls ++ [c] ∧
    thrown (completion c) = Some (VStr "boom").
Proof.
  apply (emission_raises_what_listener_threw Scenario.throwing
           [(("a", None), Fn 2); (("a", None), Fn 1)] "a" (VNum 2) () (VStr "boom")
           ltac:(not_in_list)
           ltac:(repeat (constructor; [not_in_list |]); constructor)).
  by vm_compute.
Defined.


(** The forwarded emission fails; the call that forwards returns a
    promise, which [emitSync] does not look at. *)
Lemma reemit_returns_promise_witness :
  thrown (ReturnsPromise (Rejected (VStr "boom"))) = None.
Proof.
  apply (reemit_returns_promise Forwarding.bodies Forwarding.base
           5 "a" "b" (VNum 2) (Forwarding.relay_async, ())
           (mkCall (Fn 5) (VNum 2) (ReturnsPromise (Rejected (VStr "boom"))))).
  - intros x st. by exists st.
  - reflexivity.
  - vm_compute. left.
Defined.

(** [this.on(["b"], this.reemitSync("a"))] with a listener of [a] that
    cancels: the emission of [b] is not cancelled and calls its next
    listener.  With [reemit] and a listener of [a] that fails, [emit]
    fails and [emitSync] does not. *)
Example forwarding_scenarios :
  let r := emitSync Forwarding.bodies "b" (VNum 2) (Forwarding.relay, ()) in
  let r1 := emit Forwarding.bodies "b" (VNum 2) (Forwarding.relay_async, ()) in
  let r2 := emitSync Forwarding.bodies "b" (VNum 2) (Forwarding.relay_async, ()) in
  r.1 = (Returned VUndefined,
         [mkCall (Fn 0) (VNum 2) (Returns (VCancelled (Some "stop")));
          mkCall (Fn 3) (VNum 2) (Returns VUndefined)]) ∧
  r1.1 = (Raised (VStr "boom"),
          [mkCall (Fn 5) (VNum 2) (ReturnsPromise (Rejected (VStr "boom")))]) ∧
  r2.1.1 = Returned VUndefined ∧ map target r2.1.2 = [Fn 5; Fn 3].
Proof. by vm_compute. Qed.

(** ** Slots *)

Lemma perform_slot op em t p :
  (length (bucket t p em) ≤ length (bucket t p (perform op em)))%nat ∧
  (∀ i x, bucket t p em !! i = Some x →
     bucket t p (perform op em) !! i = Some x ∨
     bucket t p (perform op em) !! i = Some None).
Proof.
  assert (Hon : ∀ key listener,
    (length (bucket t p em) ≤ length (bucket t p (on key listener em).2))%nat ∧
    (∀ i x, bucket t p em !! i = Some x →
       bucket t p (on key listener em).2 !! i = Some x ∨
       bucket t p (on key listener em).2 !! i = Some None)).
  { intros key listener. rewrite bucket_on. case_decide; [| auto].
    split; [rewrite length_app; lia |].
    intros i x Hi. left. by apply lookup_app_l_Some. }
  destruct op as [key listener | key listener | off]; simpl.
  - apply Hon.
  - apply Hon.
  - rewrite bucket_cleanup. case_decide; [| auto]. unfold delete_slot.
    split; [by rewrite length_insert |].
    intros i x Hi. rewrite list_lookup_insert. case_decide; auto.
Qed.

(** X17.  Slots are never reused or moved.  Through any series of
    registrations and calls of cleanup functions, no bucket gets shorter,
    and a slot keeps what it holds or becomes a hole: the listeners that
    remain keep their order, and a hole stays a hole. *)
Theorem slots_are_stable ops em t p :
  (length (bucket t p em) ≤ length (bucket t p (perform_all ops em)))%nat ∧
  (∀ i x, bucket t p em !! i = Some x →
     bucket t p (perform_all ops em) !! i = Some x ∨
     bucket t p (perform_all ops em) !! i = Some None).
Proof.
  revert em. unfold perform_all.
  induction ops as [| op ops IH]; intros em; simpl; [auto |].
  destruct (perform_slot op em t p) as [Hl Hs].
  destruct (IH (perform op em)) as [Hl' Hs'].
  split; [lia |].
  intros i x Hi. destruct (Hs i x Hi) as [H | H].
  - by apply Hs'.
  - right. destruct (Hs' i None H) as [H' | H']; exact H'.
Qed.

(** [offA(); on(["a"], L9)] and slot 0, which holds [A]. *)
Lemma slots_are_stable_witness :
  let em := perform_all [Unregister Scenario.offA; Register ("a", None) (Fn 9)]
              Scenario.two in
  bucket "a" normal em !! 0 = Some (Some (Fn 0)) ∨
  bucket "a" normal em !! 0 = Some None.
Proof.
  apply (slots_are_stable [Unregister Scenario.offA; Register ("a", None) (Fn 9)]
           Scenario.two "a" normal).
  reflexivity.
Defined.
